(** * SimpleComposableMemory: a shallow embedding and its properties

    Source: llama_index/core/memory/simple_composable_memory.py

    A composable memory holds one primary memory source and a list of
    secondary ones.  Reading ([get]) asks every source, renders the
    non-empty secondary histories as one block of text and splices that
    block into the leading SYSTEM message of the primary history; writing
    ([put], [set]) and [reset_all] visit every source in order.

    Strings.  A Python [str] is a sequence of Unicode code points, and
    [str.strip()] is decided by the code point, so a string is a list of
    code points ([list N]); the literals of the source are ASCII and are
    written with [lit].

    Sources.  A memory source is an object held by reference.  The store
    maps each reference (a [Handle]) to the state of the object behind it,
    every call on a source is recorded in a log, and an exception leaves the
    store as the failing call left it. *)

From Stdlib Require Import NArith Ascii String DecimalString.
From stdpp Require Import base decidable list functions.

Local Open Scope list_scope.
Local Open Scope nat_scope.

(** ** Python strings *)

Abbreviation str := (list N) (only parsing).

(** An ASCII literal of the source as a sequence of code points. *)
Definition lit (s : string) : str :=
  map N_of_ascii (list_ascii_of_string s).

(** The two escapes that occur in the source's literals. *)
Definition nl : N := 10%N.
Definition tab : N := 9%N.

(** [str(n)] for a non-negative integer, as an f-string renders it. *)
Definition str_of_int (n : nat) : str :=
  lit (NilEmpty.string_of_uint (Nat.to_uint n)).

(** [c.isspace()] for one code point: CPython's [_PyUnicode_IsWhitespace]. *)
Definition isspace (c : N) : bool :=
  ((9 <=? c) && (c <=? 13) || (28 <=? c) && (c <=? 32)
   || (c =? 133) || (c =? 160) || (c =? 5760)
   || (8192 <=? c) && (c <=? 8202)
   || (c =? 8232) || (c =? 8233) || (c =? 8239) || (c =? 8287)
   || (c =? 12288))%N.

(** [s.lstrip()], [s.rstrip()] and [s.strip()] without argument. *)
Fixpoint lstrip (s : str) : str :=
  match s with
  | c :: s' => if isspace c then lstrip s' else s
  | [] => []
  end.

Definition rstrip (s : str) : str := rev (lstrip (rev s)).

Definition strip (s : str) : str := rstrip (lstrip s).

(** [s.startswith(sep)]. *)
Fixpoint starts_with (sep s : str) : bool :=
  match sep, s with
  | [], _ => true
  | a :: sep', b :: s' => (a =? b)%N && starts_with sep' s'
  | _ :: _, [] => false
  end.

(** [s.split(sep)] for a non-empty [sep]: the pieces between the
    occurrences of [sep], found from the left and not overlapping.  [cur] is
    the piece being read and [skip] the number of characters of a matched
    separator still to pass. *)
Fixpoint split_from (sep : str) (skip : nat) (cur s : str) : list str :=
  match s with
  | [] => [cur]
  | c :: s' =>
      match skip with
      | S k => split_from sep k cur s'
      | O =>
          if starts_with sep s
          then cur :: split_from sep (length sep - 1) [] s'
          else split_from sep 0 (cur ++ [c]) s'
      end
  end.

Definition split (sep s : str) : list str := split_from sep 0 [] s.

(** [l[0]] of a list of strings; [split] never returns an empty list. *)
Definition item0 (l : list str) : str :=
  match l with
  | x :: _ => x
  | [] => []
  end.

(** The text of [s] before the first occurrence of [sep], all of [s] when
    there is none: what the specification calls "everything before the
    marker".  [split_item0] below shows that it is [s.split(sep)[0]]. *)
Fixpoint before (sep s : str) : str :=
  match s with
  | [] => []
  | c :: s' => if starts_with sep s then [] else c :: before sep s'
  end.

(** [sep] occurs nowhere in [s]. *)
Definition no_occurrence (sep s : str) : Prop :=
  forall l r, s <> l ++ sep ++ r.

(** ** Module constants *)

Definition DEFAULT_INTRO_HISTORY_MESSAGE : str :=
  lit "Below are a set of relevant dialogues retrieved from potentially several memory sources:".

Definition DEFAULT_OUTRO_HISTORY_MESSAGE : str :=
  lit "This is the end of the of retrieved message dialogues.".

(** The literal of the [else] branch of [_compose_message_histories]. *)
Definition DEFAULT_SYSTEM_PROMPT : str := lit "You are a helpful assistant.".

Arguments lit : simpl never.
Arguments DEFAULT_INTRO_HISTORY_MESSAGE : simpl never.
Arguments DEFAULT_OUTRO_HISTORY_MESSAGE : simpl never.
Arguments DEFAULT_SYSTEM_PROMPT : simpl never.

(** ** Messages *)

(** [MessageRole] is declared in llama_index.core.base.llms.types.  The
    module uses three things of it: the member [SYSTEM], equality, and
    [role.upper()], the text an f-string prints for a role. *)
Class MessageRole (Role : Type) := {
  SYSTEM : Role;
  role_eq_dec :: EqDecision Role;
  role_upper : Role -> str;
}.

(** [ChatMessage(role=..., content=...)], declared in the same module as
    [MessageRole].  The content is text, as the module treats it
    ([content.split], string concatenation). *)
Record ChatMessage (Role : Type) := mkChatMessage {
  role : Role;
  content : str;
}.
Arguments mkChatMessage {Role} _ _.
Arguments role {Role} _.
Arguments content {Role} _.

Section Formatting.
Context {Role : Type} `{!MessageRole Role}.

#[local] Abbreviation Message := (ChatMessage Role).

(** The f-strings of [_format_secondary_messages]. *)
Definition section_header (i : nat) : str :=
  [nl] ++ lit "=====Relevant messages from memory source " ++ str_of_int i
       ++ lit "=====" ++ [nl; nl].

Definition section_footer (i : nat) : str :=
  [nl] ++ lit "=====End of relevant messages from memory source "
       ++ str_of_int i ++ lit "======" ++ [nl; nl].

Definition message_line (m : Message) : str :=
  [tab] ++ role_upper (role m) ++ lit ": " ++ content m ++ [nl].

(** [enumerate(l)], counting from [ix]. *)
Fixpoint enumerate_from {A} (ix : nat) (l : list A) : list (nat * A) :=
  match l with
  | [] => []
  | x :: l' => (ix, x) :: enumerate_from (S ix) l'
  end.

Definition enumerate {A} (l : list A) : list (nat * A) := enumerate_from 0 l.

(** One round of the outer loop: [formatted_history] grows by the header,
    by one line per message (the inner loop) and by the footer. *)
Definition format_history (formatted_history : str)
    (entry : nat * list Message) : str :=
  let '(ix, chat_history) := entry in
  let formatted_history := formatted_history ++ section_header (ix + 1) in
  let formatted_history :=
    fold_left (fun acc m => acc ++ message_line m) chat_history
              formatted_history in
  formatted_history ++ section_footer (ix + 1).

Definition _format_secondary_messages
    (secondary_chat_histories : list (list Message)) : str :=
  let formatted_history := [nl; nl] ++ DEFAULT_INTRO_HISTORY_MESSAGE ++ [nl] in
  let formatted_history :=
    fold_left format_history (enumerate secondary_chat_histories)
              formatted_history in
  formatted_history ++ DEFAULT_OUTRO_HISTORY_MESSAGE.

(** The block as the specification words it: the introductory sentence,
    one section per history numbered from 1 (header, one line per message,
    footer), the closing sentence.  [format_is_injection_block] compares it
    with the loops of the source. *)
Definition render_section (i : nat) (chat_history : list Message) : str :=
  section_header i ++ concat (map message_line chat_history)
                   ++ section_footer i.

Fixpoint render_sections (i : nat) (histories : list (list Message)) : str :=
  match histories with
  | [] => []
  | h :: histories' => render_section i h ++ render_sections (S i) histories'
  end.

Definition injection_block (histories : list (list Message)) : str :=
  [nl; nl] ++ DEFAULT_INTRO_HISTORY_MESSAGE ++ [nl]
           ++ render_sections 1 histories ++ DEFAULT_OUTRO_HISTORY_MESSAGE.

(** Lines 97-121 of [_compose_message_histories]: what is done with the
    primary history [messages] once the non-empty secondary histories
    have been collected. *)
Definition merge_histories (messages : list Message)
    (secondary_histories : list (list Message)) : list Message :=
  if 0 <? length secondary_histories then
    let single_secondary_memory_str :=
      _format_secondary_messages secondary_histories in
    match messages with
    | m0 :: rest =>
        if decide (role m0 = SYSTEM) then
          let system_message :=
            item0 (split DEFAULT_INTRO_HISTORY_MESSAGE (content m0)) in
          mkChatMessage SYSTEM
            (strip system_message ++ single_secondary_memory_str) :: rest
        else
          mkChatMessage SYSTEM
            (DEFAULT_SYSTEM_PROMPT ++ single_secondary_memory_str)
            :: messages
    | [] =>
        mkChatMessage SYSTEM
          (DEFAULT_SYSTEM_PROMPT ++ single_secondary_memory_str)
          :: messages
    end
  else messages.

(** The two parts of a composed history: the text the injected block is
    appended to, and the messages that follow the leading SYSTEM message. *)
Definition system_prefix (messages : list Message) : str :=
  match messages with
  | m0 :: _ =>
      if decide (role m0 = SYSTEM)
      then strip (before DEFAULT_INTRO_HISTORY_MESSAGE (content m0))
      else DEFAULT_SYSTEM_PROMPT
  | [] => DEFAULT_SYSTEM_PROMPT
  end.

Definition history_body (messages : list Message) : list Message :=
  match messages with
  | m0 :: rest => if decide (role m0 = SYSTEM) then rest else messages
  | [] => []
  end.

(** [len(h) > 0], and the histories a round of the collecting loop keeps. *)
Definition nonempty (h : list Message) : bool := 0 <? length h.

End Formatting.

(** ** Memory sources and the store *)

(** What a call returns: a value, or the exception it raised. *)
Inductive result (X A : Type) :=
  | Ok (a : A)
  | Raise (x : X).
Arguments Ok {X A} _.
Arguments Raise {X A} _.

(** [BaseMemory] is declared in llama_index.core.memory.types; every source
    implements it in its own way.  [St] is the state of a source object,
    [Q] what [get] is asked with ([input] and the keyword arguments) and
    [E] the exceptions a source raises.  Each method sees the state of its
    object and leaves a new one, also when it raises.  A history returned
    by [get] or [get_all] is a value of the caller: the list that
    [_compose_message_histories] changes in place is its own. *)
Class BaseMemory (Role St Q E : Type) := {
  src_get : Q -> St -> result E (list (ChatMessage Role)) * St;
  src_get_all : St -> result E (list (ChatMessage Role)) * St;
  src_put : ChatMessage Role -> St -> result E unit * St;
  src_set : list (ChatMessage Role) -> St -> result E unit * St;
  src_reset : St -> result E unit * St;
  (** [ChatMemoryBuffer.from_defaults()], declared outside this module:
      the state of a freshly created default in-memory buffer. *)
  default_buffer : St;
}.

(** A reference to a source object. *)
Definition Handle := nat.

(** The calls the coordinator makes on its sources. *)
Inductive Call (Role Q : Type) :=
  | CGet (h : Handle) (q : Q)
  | CGetAll (h : Handle)
  | CPut (h : Handle) (m : ChatMessage Role)
  | CSet (h : Handle) (ms : list (ChatMessage Role))
  | CReset (h : Handle)
  | CNew (h : Handle).
Arguments CGet {Role Q} _ _.
Arguments CGetAll {Role Q} _.
Arguments CPut {Role Q} _ _.
Arguments CSet {Role Q} _ _.
Arguments CReset {Role Q} _.
Arguments CNew {Role Q} _.

(** The store: the state behind every reference, the next unused
    reference, and the calls made so far, oldest first. *)
Record World (Role St Q : Type) := mkWorld {
  cells : Handle -> St;
  next : Handle;
  calls : list (Call Role Q);
}.
Arguments mkWorld {Role St Q} _ _ _.
Arguments cells {Role St Q} _ _.
Arguments next {Role St Q} _.
Arguments calls {Role St Q} _.

(** The exceptions that leave the coordinator: its own [ValueError], or
    whatever a source raised ([FromSource] only tells the two apart, it is
    no exception class of the module). *)
Inductive exn (E : Type) :=
  | ValueError (msg : str)
  | FromSource (e : E).
Arguments ValueError {E} _.
Arguments FromSource {E} _.

(** An exception of a source, as it leaves the coordinator: no method of
    the module catches or wraps one. *)
Definition from_source {E A} (r : result E A) : result (exn E) A :=
  match r with
  | Ok a => Ok a
  | Raise e => Raise (FromSource e)
  end.

(** [SimpleComposableMemory]: its two private attributes. *)
Record SimpleComposableMemory := mkSimpleComposableMemory {
  _primary_memory : Handle;
  _secondary_memory_sources : list Handle;
}.

Section Coordinator.
Context {Role St Q E : Type} `{!MessageRole Role} `{!BaseMemory Role St Q E}.

#[local] Abbreviation Message := (ChatMessage Role).
#[local] Abbreviation Store := (World Role St Q).

(** Computations over the store that may raise. *)
Definition M (A : Type) : Type := Store -> result (exn E) A * Store.

Definition ret {A} (a : A) : M A := fun w => (Ok a, w).

Definition raise {A} (x : exn E) : M A := fun w => (Raise x, w).

Definition bind {A B} (c : M A) (k : A -> M B) : M B :=
  fun w =>
    match c w with
    | (Ok a, w') => k a w'
    | (Raise x, w') => (Raise x, w')
    end.

Notation "x <- c ;; k" := (bind c (fun x => k))
  (at level 100, c at next level, right associativity).
Notation "c ;;; k" := (bind c (fun _ => k))
  (at level 100, right associativity).

(** A method call on the source behind [h]: the call is logged, the state
    of that source alone is replaced, and an exception of the source leaves
    as it is. *)
Definition call {A} (h : Handle) (c : Call Role Q)
    (method : St -> result E A * St) : M A :=
  fun w =>
    let '(r, s') := method (cells w h) in
    (from_source r, mkWorld (<[h := s']> (cells w)) (next w) (calls w ++ [c])).

Definition mem_get (h : Handle) (q : Q) : M (list Message) :=
  call h (CGet h q) (src_get q).
Definition mem_get_all (h : Handle) : M (list Message) :=
  call h (CGetAll h) src_get_all.
Definition mem_put (h : Handle) (m : Message) : M unit :=
  call h (CPut h m) (src_put m).
Definition mem_set (h : Handle) (ms : list Message) : M unit :=
  call h (CSet h ms) (src_set ms).
Definition mem_reset (h : Handle) : M unit :=
  call h (CReset h) src_reset.

(** [ChatMemoryBuffer.from_defaults()]: a new object behind an unused
    reference. *)
Definition new_buffer : M Handle :=
  fun w =>
    (Ok (next w),
     mkWorld (<[next w := default_buffer]> (cells w)) (S (next w))
             (calls w ++ [CNew (next w)])).

(** [for x in l: acc = body(acc, x)]. *)
Fixpoint for_loop {A B} (l : list A) (acc : B) (body : B -> A -> M B) : M B :=
  match l with
  | [] => ret acc
  | x :: l' => acc' <- body acc x ;; for_loop l' acc' body
  end.

Definition for_each {A} (l : list A) (body : A -> M unit) : M unit :=
  for_loop l tt (fun _ x => body x).

(** Every source of [l] asked in order with the same query, every answer
    kept: the calls of the collecting loop of [_compose_message_histories]
    without its filter ([compose_by_answers] relates the two). *)
Fixpoint get_each (l : list Handle) (q : Q) : M (list (list Message)) :=
  match l with
  | [] => ret []
  | h :: l' =>
      a <- mem_get h q ;; rest <- get_each l' q ;; ret (a :: rest)
  end.

(** The states of the sources after [method] has run on every source of
    [l], in order, each on the state its predecessors left. *)
Definition apply_each (method : St -> result E unit * St) (l : list Handle)
    (c : Handle -> St) : Handle -> St :=
  fold_left (fun c h => <[h := snd (method (c h))]> c) l c.

(** ** The methods of [SimpleComposableMemory] *)

(** [super().__init__(sources=sources)] is the initialiser of the pydantic
    base class, outside this module; it stores nothing that the methods
    below read. *)
Definition __init__ (sources : list Handle) : M SimpleComposableMemory :=
  match sources with
  | [] => raise (ValueError (lit "Must supply at least one memory source."))
  | source0 :: rest => ret (mkSimpleComposableMemory source0 rest)
  end.

Definition primary_memory (self : SimpleComposableMemory) : Handle :=
  _primary_memory self.

Definition secondary_memory_sources (self : SimpleComposableMemory)
    : list Handle :=
  _secondary_memory_sources self.

(** [sources or [ChatMemoryBuffer.from_defaults()]]: [None] and the empty
    list are both falsy. *)
Definition from_defaults (sources : option (list Handle))
    : M SimpleComposableMemory :=
  sources' <- match sources with
              | Some (source0 :: rest) => ret (source0 :: rest)
              | Some [] | None => h <- new_buffer ;; ret [h]
              end ;;
  __init__ sources'.

Definition _compose_message_histories (self : SimpleComposableMemory)
    (input : Q) : M (list Message) :=
  messages <- mem_get (_primary_memory self) input ;;
  secondary_histories <-
    for_loop (_secondary_memory_sources self) []
      (fun secondary_histories mem =>
         secondary_history <- mem_get mem input ;;
         ret (if 0 <? length secondary_history
              then secondary_histories ++ [secondary_history]
              else secondary_histories)) ;;
  ret (merge_histories messages secondary_histories).

Definition get (self : SimpleComposableMemory) (input : Q) : M (list Message) :=
  _compose_message_histories self input.

Definition get_all (self : SimpleComposableMemory) : M (list Message) :=
  mem_get_all (_primary_memory self).

Definition put (self : SimpleComposableMemory) (message : Message) : M unit :=
  mem_put (_primary_memory self) message ;;;
  for_each (_secondary_memory_sources self) (fun mem => mem_put mem message).

Definition set (self : SimpleComposableMemory) (messages : list Message)
    : M unit :=
  mem_set (_primary_memory self) messages ;;;
  for_each (_secondary_memory_sources self) (fun mem => mem_set mem messages).

Definition reset (self : SimpleComposableMemory) : M unit :=
  mem_reset (_primary_memory self).

Definition reset_all (self : SimpleComposableMemory) : M unit :=
  mem_reset (_primary_memory self) ;;;
  for_each (_secondary_memory_sources self) mem_reset.

End Coordinator.

(** ** A concrete setting for examples *)

Module Example.

(** Modelled from the spec: the roles of [MessageRole] are declared outside
    this module; the specification names "SYSTEM, USER, ASSISTANT, or other
    defined roles", and these three are taken. *)
Inductive Role3 := System | User | Assistant.

#[export] Instance Role3_eq_dec : EqDecision Role3.
Proof. solve_decision. Defined.

#[export] Instance Role3_role : MessageRole Role3 := {
  SYSTEM := System;
  role_upper r :=
    match r with
    | System => lit "SYSTEM"
    | User => lit "USER"
    | Assistant => lit "ASSISTANT"
    end;
}.

(** Modelled from the spec: no implementation of [BaseMemory] is in this
    module.  A [Buffer] is a source that keeps its history in a list,
    "a default in-memory buffer": [get] and [get_all] return the stored
    history, [put] appends, [set] overwrites and [reset] clears.  A buffer
    that is not [writable] raises on every write and keeps its history. *)
Record Buffer := mkBuffer {
  history : list (ChatMessage Role3);
  writable : bool;
}.

Inductive BufferError := WriteFailed.

Definition write (new_history : list (ChatMessage Role3)) (b : Buffer)
    : result BufferError unit * Buffer :=
  if writable b then (Ok tt, mkBuffer new_history true)
  else (Raise WriteFailed, b).

#[export] Instance Buffer_memory
    : BaseMemory Role3 Buffer (option (list N)) BufferError := {
  src_get _ b := (Ok (history b), b);
  src_get_all b := (Ok (history b), b);
  src_put m b := write (history b ++ [m]) b;
  src_set ms b := write ms b;
  src_reset b := write [] b;
  default_buffer := mkBuffer [] true;
}.

Definition msg (r : Role3) (text : string) : ChatMessage Role3 :=
  mkChatMessage r (lit text).

(** [get()] without [input] and without keyword arguments. *)
Definition no_query : option (list N) := None.

(** A store whose first references hold the states of [l], in order; every
    other reference holds an empty buffer. *)
Definition store_of (l : list Buffer) : World Role3 Buffer (option (list N)) :=
  mkWorld (fun h => nth h l (mkBuffer [] true)) (length l) [].

(** What [get_all] of the source behind [h] would return in [w]. *)
Definition stored (h : Handle) (w : World Role3 Buffer (option (list N)))
    : list (ChatMessage Role3) :=
  history (cells w h).


(** The conversation used below: a system prompt and a question in the
    primary source, earlier dialogues in the secondary ones. *)
Definition dialogue : list (ChatMessage Role3) :=
  [msg System "You are a tutor."; msg User "What is a monad?"].

Definition earlier : list (ChatMessage Role3) :=
  [msg User "I know Haskell."; msg Assistant "Noted."].

Definition later : list (ChatMessage Role3) :=
  [msg User "I know OCaml."; msg Assistant "Good."; msg User "And Rocq."].

(** One primary source behind reference 0 and two secondary sources behind
    references 1 and 2. *)
Definition memory3 : SimpleComposableMemory :=
  mkSimpleComposableMemory 0 [1; 2].

(** The same source object given twice: primary and only secondary. *)
Definition memory_aliased : SimpleComposableMemory :=
  mkSimpleComposableMemory 0 [0].

End Example.

(** ** Reading in order *)

Section Reading.
Context {Role St Q E : Type} `{!BaseMemory Role St Q E}.

(** The states of the sources after [get] has been called with [q] on
    every source of [l], in order, each on the state its predecessors
    left. *)
Definition asked_each (q : Q) (l : list Handle) (c : Handle -> St)
    : Handle -> St :=
  fold_left (fun c h => <[h := snd (src_get q (c h))]> c) l c.

End Reading.

(** ** A source whose reads can fail *)

Module Flaky.
Import Example.

(** Modelled from the spec: no implementation of [BaseMemory] is in this
    module.  A [Shelf] keeps its history in a list as a [Buffer] does and
    accepts every write; when it is not [readable], [get] and [get_all]
    raise and leave it as it is (a source whose read fails). *)
Record Shelf := mkShelf {
  kept : list (ChatMessage Role3);
  readable : bool;
}.

Inductive ShelfError := ReadFailed.

Definition read (s : Shelf)
    : result ShelfError (list (ChatMessage Role3)) * Shelf :=
  if readable s then (Ok (kept s), s) else (Raise ReadFailed, s).

#[export] Instance Shelf_memory
    : BaseMemory Role3 Shelf (option (list N)) ShelfError := {
  src_get _ s := read s;
  src_get_all s := read s;
  src_put m s := (Ok tt, mkShelf (kept s ++ [m]) (readable s));
  src_set ms s := (Ok tt, mkShelf ms (readable s));
  src_reset s := (Ok tt, mkShelf [] (readable s));
  default_buffer := mkShelf [] true;
}.

(** A store whose first references hold the states of [l], in order. *)
Definition shelves (l : list Shelf) : World Role3 Shelf (option (list N)) :=
  mkWorld (fun h => nth h l (mkShelf [] true)) (length l) [].

End Flaky.

(** * Properties *)

(** ** Strings: [startswith], [split] and [strip] *)

Section StringFacts.
Implicit Types sep s t cur : list N.

Lemma starts_with_prefix sep s :
  starts_with sep s = true <-> exists t, s = sep ++ t.
Proof.
  revert s. induction sep as [|a sep IH]; intros s; simpl.
  - split; [intros _; by exists s | done].
  - destruct s as [|b s].
    + split; [done | intros [t Ht]; discriminate].
    + rewrite andb_true_iff, N.eqb_eq, IH. split.
      * intros [-> [t ->]]. by exists t.
      * intros [t Ht]. injection Ht as -> ->. eauto.
Qed.

Lemma starts_with_app sep t : starts_with sep (sep ++ t) = true.
Proof. apply starts_with_prefix. by exists t. Qed.

(** [s.split(sep)[0]] is the text before the first occurrence of [sep]. *)
Lemma split_from_item0 sep cur s :
  item0 (split_from sep 0 cur s) = cur ++ before sep s.
Proof.
  revert cur. induction s as [|c s IH]; intros cur; simpl.
  - by rewrite app_nil_r.
  - destruct (starts_with sep (c :: s)); simpl.
    + by rewrite app_nil_r.
    + rewrite IH. by rewrite <- app_assoc.
Qed.

Lemma split_item0 sep s : item0 (split sep s) = before sep s.
Proof. unfold split. by rewrite split_from_item0. Qed.

Lemma before_is_prefix sep s : exists r, s = before sep s ++ r.
Proof.
  induction s as [|c s [r Hr]]; simpl.
  - by exists [].
  - destruct (starts_with sep (c :: s)).
    + by exists (c :: s).
    + exists r. simpl. by rewrite <- Hr.
Qed.

(** The separator does not occur in the text before its first occurrence. *)
Lemma before_no_occurrence sep s :
  sep <> [] -> no_occurrence sep (before sep s).
Proof.
  intros Hsep. induction s as [|c s IH]; intros l r; simpl.
  - intros H. symmetry in H. apply app_eq_nil in H as [_ H].
    apply app_eq_nil in H as [H _]. done.
  - destruct (starts_with sep (c :: s)) eqn:Hsw.
    + intros H. symmetry in H. apply app_eq_nil in H as [_ H].
      apply app_eq_nil in H as [H _]. done.
    + destruct l as [|c' l]; simpl.
      * intros H. destruct (before_is_prefix sep s) as [r' Hr'].
        assert (starts_with sep (c :: s) = true) as Hsw'.
        { apply starts_with_prefix. exists (r ++ r').
          rewrite Hr', app_comm_cons, H. by rewrite <- app_assoc. }
        congruence.
      * intros H. injection H as _ H. by apply (IH l r).
Qed.

Lemma no_occurrence_infix sep l s r :
  no_occurrence sep (l ++ s ++ r) -> no_occurrence sep s.
Proof.
  intros H l' r' ->. apply (H (l ++ l') (r' ++ r)).
  by rewrite <- !app_assoc.
Qed.

(** A separator without the character [c] cannot start inside a text it
    does not occur in and run over a [c] that follows the text. *)
Lemma before_app_no_occurrence sep s c t :
  c ∉ sep -> no_occurrence sep s ->
  before sep (s ++ c :: t) = s ++ before sep (c :: t).
Proof.
  intros Hc. induction s as [|a s IH]; intros Hs; [done|].
  assert (starts_with sep ((a :: s) ++ c :: t) = false) as Hsw.
  { apply not_true_is_false. intros [u Hu]%starts_with_prefix.
    symmetry in Hu. apply app_eq_app in Hu as [k [[-> Hk]|[Hk _]]].
    - destruct k as [|c' k].
      + apply (Hs [] []). by rewrite !app_nil_r.
      + injection Hk as <- _. apply Hc.
        rewrite elem_of_app. right. left.
    - apply (Hs [] k). by rewrite Hk. }
  change (before sep ((a :: s) ++ c :: t))
    with (if starts_with sep ((a :: s) ++ c :: t) then []
          else a :: before sep (s ++ c :: t)).
  rewrite Hsw, IH; [done|].
  intros l r Hlr. apply (Hs (a :: l) r). by rewrite Hlr.
Qed.

(** *** [strip] *)

Lemma lstrip_is_suffix s : exists l, s = l ++ lstrip s.
Proof.
  induction s as [|c s [l Hl]]; simpl; [by exists []|].
  destruct (isspace c).
  - exists (c :: l). simpl. by rewrite <- Hl.
  - by exists [].
Qed.

Lemma lstrip_head_nonspace s c t : lstrip s = c :: t -> isspace c = false.
Proof.
  induction s as [|a s IH]; simpl; [done|].
  destruct (isspace a) eqn:Ha; [done|]. by intros [= <- _].
Qed.

Lemma lstrip_nonspace c s : isspace c = false -> lstrip (c :: s) = c :: s.
Proof. intros H. simpl. by rewrite H. Qed.

Lemma lstrip_spaces_app ws s :
  forallb isspace ws = true -> lstrip (ws ++ s) = lstrip s.
Proof.
  induction ws as [|c ws IH]; simpl; [done|].
  intros [-> Hws]%andb_true_iff. auto.
Qed.

Lemma lstrip_snoc_nonspace s c :
  isspace c = false -> lstrip (s ++ [c]) = lstrip s ++ [c].
Proof.
  intros Hc. induction s as [|a s IH]; simpl.
  - by rewrite Hc.
  - by destruct (isspace a).
Qed.

Lemma rstrip_cons_nonspace c s :
  isspace c = false -> rstrip (c :: s) = c :: rstrip s.
Proof.
  intros Hc. unfold rstrip. simpl.
  by rewrite lstrip_snoc_nonspace, rev_app_distr.
Qed.

Lemma rstrip_app_spaces s ws :
  forallb isspace ws = true -> rstrip (s ++ ws) = rstrip s.
Proof.
  intros Hws. unfold rstrip. rewrite rev_app_distr, lstrip_spaces_app; [done|].
  rewrite forallb_forall in *. intros x Hx. apply Hws. by apply in_rev.
Qed.

Lemma rstrip_is_prefix s : exists r, s = rstrip s ++ r.
Proof.
  unfold rstrip. destruct (lstrip_is_suffix (rev s)) as [l Hl].
  exists (rev l). rewrite <- rev_app_distr, <- Hl. by rewrite rev_involutive.
Qed.

Lemma rstrip_idemp s : rstrip (rstrip s) = rstrip s.
Proof.
  unfold rstrip. rewrite rev_involutive. f_equal.
  destruct (lstrip (rev s)) as [|c t] eqn:H; [done|].
  apply lstrip_nonspace. by apply lstrip_head_nonspace in H.
Qed.

(** What [strip] returns is a piece of its argument... *)
Lemma strip_is_infix s : exists l r, s = l ++ strip s ++ r.
Proof.
  unfold strip. destruct (lstrip_is_suffix s) as [l Hl].
  destruct (rstrip_is_prefix (lstrip s)) as [r Hr].
  exists l, r. by rewrite <- Hr.
Qed.

(** ... that has no white space at either end, so that white space added
    at its end is stripped again. *)
Lemma strip_strip_app_spaces s ws :
  forallb isspace ws = true -> strip (strip s ++ ws) = strip s.
Proof.
  intros Hws. unfold strip.
  destruct (lstrip s) as [|c t] eqn:Hl.
  - change (rstrip []) with (@nil N). simpl.
    rewrite <- (app_nil_r ws), lstrip_spaces_app by done. done.
  - pose proof (lstrip_head_nonspace _ _ _ Hl) as Hc.
    rewrite rstrip_cons_nonspace by done. simpl. rewrite Hc.
    rewrite app_comm_cons, rstrip_app_spaces by done.
    rewrite <- rstrip_cons_nonspace by done. apply rstrip_idemp.
Qed.

End StringFacts.

(** ** The marker sentence *)

Lemma intro_nonempty : DEFAULT_INTRO_HISTORY_MESSAGE <> [].
Proof. discriminate. Qed.

Lemma intro_no_newline : nl ∉ DEFAULT_INTRO_HISTORY_MESSAGE.
Proof. apply (bool_decide_unpack _). by vm_compute. Qed.

(** A text followed by a blank line and the marker is cut back to the text
    followed by the blank line. *)
Lemma before_intro_block (x rest : list N) :
  no_occurrence DEFAULT_INTRO_HISTORY_MESSAGE x ->
  before DEFAULT_INTRO_HISTORY_MESSAGE
         (x ++ [nl; nl] ++ DEFAULT_INTRO_HISTORY_MESSAGE ++ rest)
  = x ++ [nl; nl].
Proof.
  intros Hx.
  change (x ++ [nl; nl] ++ DEFAULT_INTRO_HISTORY_MESSAGE ++ rest)
    with (x ++ nl :: ([nl] ++ DEFAULT_INTRO_HISTORY_MESSAGE ++ rest)).
  rewrite before_app_no_occurrence by (done || apply intro_no_newline).
  (* the two newlines differ from the first character of the marker, and
     then the marker itself starts the rest *)
  by f_equal.
Qed.

Lemma default_prompt_no_occurrence :
  no_occurrence DEFAULT_INTRO_HISTORY_MESSAGE DEFAULT_SYSTEM_PROMPT.
Proof.
  intros l r H. apply (f_equal length) in H.
  rewrite !length_app in H.
  set (n := length DEFAULT_SYSTEM_PROMPT) in H.
  set (k := length DEFAULT_INTRO_HISTORY_MESSAGE) in H.
  vm_compute in n, k. lia.
Qed.

Lemma default_prompt_stripped : strip DEFAULT_SYSTEM_PROMPT = DEFAULT_SYSTEM_PROMPT.
Proof. by vm_compute. Qed.

(** ** Formatting and merging *)

Section FormattingFacts.
Context {Role : Type} `{!MessageRole Role}.
Implicit Types (m : ChatMessage Role) (h messages : list (ChatMessage Role)).
Implicit Types hs : list (list (ChatMessage Role)).

Lemma fold_left_append {A} (f : A -> list N) (l : list A) (acc : list N) :
  fold_left (fun acc x => acc ++ f x) l acc = acc ++ concat (map f l).
Proof.
  revert acc. induction l as [|x l IH]; intros acc; simpl.
  - by rewrite app_nil_r.
  - by rewrite IH, <- app_assoc.
Qed.

Lemma format_history_render acc ix h :
  format_history acc (ix, h) = acc ++ render_section (ix + 1) h.
Proof.
  unfold format_history, render_section.
  by rewrite fold_left_append, <- !app_assoc.
Qed.

Lemma fold_format_history hs ix acc :
  fold_left format_history (enumerate_from ix hs) acc
  = acc ++ render_sections (ix + 1) hs.
Proof.
  revert ix acc. induction hs as [|h hs IH]; intros ix acc;
    cbn [enumerate_from fold_left render_sections].
  - by rewrite app_nil_r.
  - rewrite format_history_render, IH, <- app_assoc.
    by replace (S ix + 1) with (S (ix + 1)) by lia.
Qed.

(** The loops of the source build the block the specification describes. *)
Lemma format_is_injection_block hs :
  _format_secondary_messages hs = injection_block hs.
Proof.
  unfold _format_secondary_messages, injection_block, enumerate.
  rewrite fold_format_history. change (0 + 1) with 1.
  by rewrite <- !app_assoc.
Qed.

(** The block opens with a blank line and the marker sentence. *)
Lemma format_opens_with_marker hs :
  exists rest,
    _format_secondary_messages hs
    = [nl; nl] ++ DEFAULT_INTRO_HISTORY_MESSAGE ++ rest.
Proof. rewrite format_is_injection_block. unfold injection_block. eauto. Qed.

Lemma format_nonempty hs : _format_secondary_messages hs <> [].
Proof. destruct (format_opens_with_marker hs) as [rest ->]. discriminate. Qed.

Lemma merge_histories_nil messages : merge_histories messages [] = messages.
Proof. done. Qed.

Lemma merge_histories_cons messages hs :
  hs <> [] ->
  merge_histories messages hs
  = mkChatMessage SYSTEM (system_prefix messages ++ _format_secondary_messages hs)
      :: history_body messages.
Proof.
  intros Hhs. unfold merge_histories, system_prefix, history_body.
  destruct hs as [|h hs]; [done|]. simpl length.
  change (0 <? S (length hs)) with true. cbv iota.
  destruct messages as [|m0 rest]; [done|].
  destruct (decide (role m0 = SYSTEM)); [|done].
  by rewrite split_item0.
Qed.

(** The prefix of a history is a stripped text without the marker. *)
Lemma system_prefix_shape messages :
  exists y, system_prefix messages = strip y
            /\ no_occurrence DEFAULT_INTRO_HISTORY_MESSAGE y.
Proof.
  unfold system_prefix.
  assert (exists y, DEFAULT_SYSTEM_PROMPT = strip y
                    /\ no_occurrence DEFAULT_INTRO_HISTORY_MESSAGE y) as Hd.
  { exists DEFAULT_SYSTEM_PROMPT.
    split; [by rewrite default_prompt_stripped|].
    apply default_prompt_no_occurrence. }
  destruct messages as [|m0 rest]; [done|].
  destruct (decide (role m0 = SYSTEM)); [|done].
  eexists. split; [done|]. apply before_no_occurrence, intro_nonempty.
Qed.

(** Composing over a composed history finds the same prefix again: the
    block injected before is cut off at its marker. *)
Lemma system_prefix_of_composed messages hs body :
  system_prefix
    (mkChatMessage SYSTEM
       (system_prefix messages ++ _format_secondary_messages hs) :: body)
  = system_prefix messages.
Proof.
  destruct (system_prefix_shape messages) as (y & Hy & Hno).
  destruct (format_opens_with_marker hs) as [rest Hrest].
  destruct (strip_is_infix y) as (l & r & Hlr).
  assert (no_occurrence DEFAULT_INTRO_HISTORY_MESSAGE (strip y)) as Hno'.
  { rewrite Hlr in Hno. by apply no_occurrence_infix in Hno. }
  unfold system_prefix at 1. simpl.
  destruct (decide (SYSTEM = SYSTEM)); [|done].
  rewrite Hrest, Hy, before_intro_block by done.
  by apply strip_strip_app_spaces.
Qed.

End FormattingFacts.

(** ** The coordinator *)

Section CoordinatorFacts.
Context {Role St Q E : Type} `{!MessageRole Role} `{!BaseMemory Role St Q E}.
Implicit Types (self : SimpleComposableMemory) (q : Q) (l : list Handle).
Implicit Types (w v : World Role St Q) (m : ChatMessage Role).
Implicit Types (messages : list (ChatMessage Role)).
Implicit Types (hists : list (list (ChatMessage Role))).

(** *** Reading *)

(** The collecting loop keeps the non-empty answers, in the order asked. *)
Lemma collect_loop l q (acc : list (list (ChatMessage Role))) w :
  for_loop l acc
    (fun secondary_histories mem =>
       bind (mem_get mem q)
         (fun secondary_history =>
            ret (if 0 <? length secondary_history
                 then secondary_histories ++ [secondary_history]
                 else secondary_histories))) w
  = match get_each l q w with
    | (Ok hists, w') => (Ok (acc ++ List.filter nonempty hists), w')
    | (Raise x, w') => (Raise x, w')
    end.
Proof.
  revert acc w. induction l as [|h l IH]; intros acc w.
  - cbn. rewrite app_nil_r. reflexivity.
  - cbn [for_loop get_each]. unfold bind at 1 2 4.
    destruct (mem_get h q w) as [[a|x] w1]; [|done].
    unfold ret at 1. rewrite IH. unfold bind.
    destruct (get_each l q w1) as [[hists|x] w2]; [|done].
    unfold ret. cbn [List.filter]. unfold nonempty at 2.
    destruct (0 <? length a); [|done]. by rewrite <- app_assoc.
Qed.

(** [get] from the answers of the sources: the primary's answer merged
    with the non-empty answers of the secondary sources. *)
Lemma compose_by_answers self q w messages w1 hists w2 :
  mem_get (_primary_memory self) q w = (Ok messages, w1) ->
  get_each (_secondary_memory_sources self) q w1 = (Ok hists, w2) ->
  get self q w
  = (Ok (merge_histories messages (List.filter nonempty hists)), w2).
Proof.
  intros Hp Hs. unfold get, _compose_message_histories.
  unfold bind at 1. rewrite Hp. unfold bind at 1.
  rewrite collect_loop, Hs. done.
Qed.

Lemma filter_all_empty hists :
  Forall (fun h => h = []) hists -> List.filter nonempty hists = [].
Proof.
  induction 1 as [|h hists -> _ IH]; [done|]. by cbn.
Qed.

Lemma filter_some_nonempty hists :
  Exists (fun h => h <> []) hists -> List.filter nonempty hists <> [].
Proof.
  induction 1 as [h hists Hh|h hists _ IH]; cbn [List.filter].
  - by destruct h.
  - by destruct (nonempty h).
Qed.

(** *** Writing and resetting: a method run on every source in order *)

Lemma for_each_cons {A} (x : A) (xs : list A) (body : A -> M unit) w :
  for_each (E := E) (x :: xs) body w
  = match body x w with
    | (Ok _, w') => for_each xs body w'
    | (Raise e, w') => (Raise e, w')
    end.
Proof.
  unfold for_each. cbn [for_loop]. unfold bind.
  by destruct (body x w) as [[[]|e] w'].
Qed.

Lemma apply_each_cons (method : St -> result E unit * St) h l
    (c : Handle -> St) r s' :
  method (c h) = (r, s') ->
  apply_each method (h :: l) c = apply_each method l (<[h := s']> c).
Proof. intros Hm. unfold apply_each. cbn [fold_left]. by rewrite Hm. Qed.

(** Either every call succeeds, or the loop stops at the first source
    whose call raises: the sources before it have been changed, the ones
    after it have not been called, and the exception is the source's. *)
Lemma for_each_call_cases l (mk : Handle -> Call Role Q)
    (method : St -> result E unit * St) w :
  let loop l := for_each l (fun mem => call mem (mk mem) method) in
  loop l w
  = (Ok tt, mkWorld (apply_each method l (cells w)) (next w)
                    (calls w ++ map mk l))
  \/ exists done_ mem rest e s',
      l = done_ ++ mem :: rest
      /\ loop done_ w
         = (Ok tt, mkWorld (apply_each method done_ (cells w)) (next w)
                           (calls w ++ map mk done_))
      /\ method (apply_each method done_ (cells w) mem) = (Raise e, s')
      /\ loop l w
         = (Raise (FromSource e),
            mkWorld (<[mem := s']> (apply_each method done_ (cells w)))
                    (next w) (calls w ++ map mk (done_ ++ [mem]))).
Proof.
  intros loop. revert w. induction l as [|h l IH]; intros w.
  - left. destruct w. cbn. by rewrite app_nil_r.
  - assert (forall k, loop (h :: k) w
              = match call h (mk h) method w with
                | (Ok _, w') => loop k w'
                | (Raise e, w') => (Raise e, w')
                end) as Hstep
      by (intros k;
          exact (for_each_cons h k (fun mem => call mem (mk mem) method) w)).
    unfold call in Hstep.
    destruct (method (cells w h)) as [[[]|e] s'] eqn:Hm.
    + specialize (IH (mkWorld (<[h:=s']> (cells w)) (next w) (calls w ++ [mk h]))).
      cbn [cells next calls] in IH.
      destruct IH as [Hok|(done_ & mem & rest & e & t & -> & Hd & He & Hl)].
      * left. rewrite Hstep, Hok, (apply_each_cons _ _ _ _ _ _ Hm).
        cbn [map]. by rewrite <- app_assoc.
      * right. exists (h :: done_), mem, rest, e, t.
        rewrite !Hstep, Hd, Hl, !(apply_each_cons _ _ _ _ _ _ Hm).
        cbn [map app]. rewrite <- !app_assoc. done.
    + right. exists [], h, l, e, s'. rewrite Hstep.
      repeat split; [|exact Hm].
      destruct w. cbn. by rewrite app_nil_r.
Qed.

(** *** [get] *)

(** C3.  When every secondary source answers [get] with an empty history,
    [get] returns the very sequence the primary source's [get] returned: no
    block is built, and no SYSTEM message is inserted or replaced. *)
Theorem get_without_secondary_history self q w messages w1 hists w2 :
  mem_get (_primary_memory self) q w = (Ok messages, w1) ->
  get_each (_secondary_memory_sources self) q w1 = (Ok hists, w2) ->
  Forall (fun h => h = []) hists ->
  get self q w = (Ok messages, w2).
Proof.
  intros Hp Hs Hempty. rewrite (compose_by_answers _ _ _ _ _ _ _ Hp Hs).
  by rewrite filter_all_empty.
Qed.

(** C5.  When the primary source answers with an empty history and some
    secondary source with a non-empty one, [get] returns one message: a
    SYSTEM message whose content is the default assistant introduction
    followed by the block formatted from the non-empty secondary
    histories. *)
Theorem get_with_empty_primary self q w w1 hists w2 :
  mem_get (_primary_memory self) q w = (Ok [], w1) ->
  get_each (_secondary_memory_sources self) q w1 = (Ok hists, w2) ->
  Exists (fun h => h <> []) hists ->
  get self q w
  = (Ok [mkChatMessage SYSTEM
           (DEFAULT_SYSTEM_PROMPT
              ++ _format_secondary_messages (List.filter nonempty hists))],
     w2).
Proof.
  intros Hp Hs Hsome. rewrite (compose_by_answers _ _ _ _ _ _ _ Hp Hs).
  by rewrite merge_histories_cons by by apply filter_some_nonempty.
Qed.

(** C2, as amended.  When the primary history starts with a SYSTEM message
    of content X and some secondary source answers with a non-empty
    history, [get] returns the primary history with its first message
    replaced by a SYSTEM message whose content is the part of X before the
    first occurrence of the marker sentence, stripped of white space at
    both ends, followed by the block B; the other messages are unchanged
    and in their order. *)
Theorem get_with_system_first self q w m0 rest w1 hists w2 :
  mem_get (_primary_memory self) q w = (Ok (m0 :: rest), w1) ->
  role m0 = SYSTEM ->
  get_each (_secondary_memory_sources self) q w1 = (Ok hists, w2) ->
  Exists (fun h => h <> []) hists ->
  get self q w
  = (Ok (mkChatMessage SYSTEM
           (strip (before DEFAULT_INTRO_HISTORY_MESSAGE (content m0))
              ++ _format_secondary_messages (List.filter nonempty hists))
           :: rest),
     w2).
Proof.
  intros Hp Hrole Hs Hsome. rewrite (compose_by_answers _ _ _ _ _ _ _ Hp Hs).
  rewrite merge_histories_cons by by apply filter_some_nonempty.
  unfold system_prefix, history_body.
  by destruct (decide (role m0 = SYSTEM)).
Qed.

(** C1.  Composition does not pile up blocks.  Let a first [get] inject
    the block B, so that its result starts with a SYSTEM message of content
    X ++ B, and let the primary source return that result to a second [get]
    that injects the block B'.  The second result starts with a SYSTEM
    message of content X ++ B', the other messages are those of the first
    result, and X ++ B' is not X ++ B ++ B'. *)
Theorem recomposition_replaces_block
    self q w messages w1 hists w2 x rest q' v v1 hists' v2 :
  let B := _format_secondary_messages (List.filter nonempty hists) in
  let B' := _format_secondary_messages (List.filter nonempty hists') in
  mem_get (_primary_memory self) q w = (Ok messages, w1) ->
  get_each (_secondary_memory_sources self) q w1 = (Ok hists, w2) ->
  Exists (fun h => h <> []) hists ->
  get self q w = (Ok (mkChatMessage SYSTEM (x ++ B) :: rest), w2) ->
  mem_get (_primary_memory self) q' v
  = (Ok (mkChatMessage SYSTEM (x ++ B) :: rest), v1) ->
  get_each (_secondary_memory_sources self) q' v1 = (Ok hists', v2) ->
  Exists (fun h => h <> []) hists' ->
  get self q' v = (Ok (mkChatMessage SYSTEM (x ++ B') :: rest), v2)
  /\ x ++ B' <> x ++ B ++ B'.
Proof.
  intros B B' Hp Hs Hsome Hfirst Hp' Hs' Hsome'.
  rewrite (compose_by_answers _ _ _ _ _ _ _ Hp Hs) in Hfirst.
  rewrite merge_histories_cons in Hfirst by by apply filter_some_nonempty.
  injection Hfirst as Hx Hrest. fold B in Hx.
  apply app_inv_tail in Hx. subst x rest.
  split.
  - rewrite (compose_by_answers _ _ _ _ _ _ _ Hp' Hs').
    rewrite merge_histories_cons by by apply filter_some_nonempty.
    unfold B. rewrite system_prefix_of_composed.
    unfold history_body. cbn [role].
    by destruct (decide (SYSTEM = SYSTEM)).
  - intros Heq. apply app_inv_head in Heq.
    rewrite <- (app_nil_l B') in Heq at 1. apply app_inv_tail in Heq.
    symmetry in Heq. by apply format_nonempty in Heq.
Qed.

(** *** Construction *)

(** C4.  The constructor raises exactly when the list of sources is empty,
    and what it raises is its [ValueError] (the configuration error of the
    specification); on a non-empty list it succeeds, the primary memory is
    the first source and the secondary sources are the others, in order. *)
Theorem init_splits_sources (sources : list Handle) w :
  ((exists x w', __init__ (E := E) sources w = (Raise x, w')) <-> sources = [])
  /\ __init__ (E := E) [] w
     = (Raise (ValueError (lit "Must supply at least one memory source.")), w)
  /\ forall source0 rest,
       exists self,
         __init__ (E := E) (source0 :: rest) w = (Ok self, w)
         /\ primary_memory self = source0
         /\ secondary_memory_sources self = rest.
Proof.
  split; [|split].
  - destruct sources as [|source0 rest]; cbn; split; try done.
    + intros _. eauto.
    + by intros (x & w' & [=]).
  - done.
  - intros source0 rest. by eexists.
Qed.

(** C10.  [from_defaults] succeeds for every list of sources.  For the
    empty list, as for no list at all, it makes a new default buffer, which
    becomes the primary memory with no secondary source; the empty list
    raises only when it is given to the constructor itself. *)
Theorem from_defaults_never_raises (sources : list Handle) w :
  (exists self w', from_defaults (Some sources) w = (Ok self, w'))
  /\ from_defaults (Some []) w
     = (Ok (mkSimpleComposableMemory (next w) []),
        mkWorld (<[next w := default_buffer]> (cells w)) (S (next w))
                (calls w ++ [CNew (next w)]))
  /\ from_defaults None w = from_defaults (Some []) w
  /\ exists x, __init__ (E := E) [] w = (Raise x, w).
Proof.
  split; [|split; [done|split; [done|]]].
  - destruct sources as [|source0 rest]; cbn; eauto.
  - by eexists.
Qed.

(** *** [get_all], [put], [reset] and [reset_all] *)

(** C9.  [get_all] makes one call, [get_all] on the primary source, and
    returns what that call returns, exception included; no [get] and no
    other [get_all] is called, and the result is the same whatever the
    other sources hold. *)
Theorem get_all_asks_primary_only self w :
  let p := _primary_memory self in
  let answer := src_get_all (cells w p) in
  get_all self w
  = (from_source (fst answer),
     mkWorld (<[p := snd answer]> (cells w)) (next w) (calls w ++ [CGetAll p]))
  /\ forall v, cells v p = cells w p ->
               fst (get_all self v) = fst (get_all self w).
Proof.
  intros p answer. unfold get_all, mem_get_all, call. fold p. split.
  - subst answer. by destruct (src_get_all (cells w p)).
  - intros v ->. by destruct (src_get_all (cells w p)).
Qed.

Lemma put_as_loop self m w :
  put self m w
  = for_each (_primary_memory self :: _secondary_memory_sources self)
             (fun mem => mem_put mem m) w.
Proof. by rewrite for_each_cons. Qed.

Lemma reset_all_as_loop self w :
  reset_all self w
  = for_each (_primary_memory self :: _secondary_memory_sources self)
             mem_reset w.
Proof. by rewrite for_each_cons. Qed.

(** C7, as amended.  [put] calls [put] on the primary source and then on
    each secondary source, in order.  Either every call succeeds, or [put]
    stops at the first source whose call raises: the exception that leaves
    is the one that source raised, passed on as it is; the sources before it
    keep what was put; the sources after it are not called. *)
Theorem put_writes_in_order self m w :
  let sources := _primary_memory self :: _secondary_memory_sources self in
  let after l :=
    mkWorld (apply_each (src_put m) l (cells w)) (next w)
            (calls w ++ map (fun mem => CPut mem m) l) in
  put self m w = (Ok tt, after sources)
  \/ exists written mem unwritten e s',
      sources = written ++ mem :: unwritten
      /\ for_each written (fun mem => mem_put mem m) w = (Ok tt, after written)
      /\ src_put m (cells (after written) mem) = (Raise e, s')
      /\ put self m w
         = (Raise (FromSource e),
            mkWorld (<[mem := s']> (cells (after written))) (next w)
                    (calls w ++ map (fun mem => CPut mem m) (written ++ [mem]))).
Proof.
  intros sources after. rewrite put_as_loop. fold sources.
  apply (for_each_call_cases sources (fun mem => CPut mem m) (src_put m) w).
Qed.


End CoordinatorFacts.

(** ** The injected block *)

Section FormattingClaims.
Context {Role : Type} `{!MessageRole Role}.
Implicit Types (a b : ChatMessage Role) (hs : list (list (ChatMessage Role))).

Lemma section_header_1 :
  section_header 1
  = [nl] ++ lit "=====Relevant messages from memory source 1=====" ++ [nl; nl].
Proof. by vm_compute. Qed.

Lemma section_header_2 :
  section_header 2
  = [nl] ++ lit "=====Relevant messages from memory source 2=====" ++ [nl; nl].
Proof. by vm_compute. Qed.

Lemma section_footer_1 :
  section_footer 1
  = [nl] ++ lit "=====End of relevant messages from memory source 1======"
         ++ [nl; nl].
Proof. by vm_compute. Qed.

Lemma section_footer_2 :
  section_footer 2
  = [nl] ++ lit "=====End of relevant messages from memory source 2======"
         ++ [nl; nl].
Proof. by vm_compute. Qed.

(** C6.  The block built from a sequence of histories is the introductory
    sentence, then for each history in order, numbered from 1, a header
    naming its number, one line per message in order (a tab, the role in
    upper case, a colon and a space, the content), and a footer naming the
    same number, then the closing sentence.  For histories of two and of
    three messages that is a section numbered 1 with two lines and a
    section numbered 2 with three. *)
Theorem format_renders_numbered_sections hs :
  _format_secondary_messages hs
  = [nl; nl] ++ DEFAULT_INTRO_HISTORY_MESSAGE ++ [nl]
      ++ render_sections 1 hs ++ DEFAULT_OUTRO_HISTORY_MESSAGE
  /\ (forall i h hs',
        render_sections i (h :: hs')
        = section_header i ++ concat (map message_line h) ++ section_footer i
            ++ render_sections (S i) hs')
  /\ (forall a,
        message_line a
        = [tab] ++ role_upper (role a) ++ lit ": " ++ content a ++ [nl])
  /\ (forall a1 a2 b1 b2 b3,
        _format_secondary_messages [[a1; a2]; [b1; b2; b3]]
        = [nl; nl] ++ DEFAULT_INTRO_HISTORY_MESSAGE ++ [nl]
            ++ ([nl] ++ lit "=====Relevant messages from memory source 1====="
                     ++ [nl; nl])
            ++ message_line a1 ++ message_line a2
            ++ ([nl]
                  ++ lit "=====End of relevant messages from memory source 1======"
                  ++ [nl; nl])
            ++ ([nl] ++ lit "=====Relevant messages from memory source 2====="
                     ++ [nl; nl])
            ++ message_line b1 ++ message_line b2 ++ message_line b3
            ++ ([nl]
                  ++ lit "=====End of relevant messages from memory source 2======"
                  ++ [nl; nl])
            ++ DEFAULT_OUTRO_HISTORY_MESSAGE).
Proof.
  split; [apply format_is_injection_block|].
  split; [|split; [done|]].
  - intros i h hs'. cbn [render_sections]. unfold render_section.
    by rewrite <- !app_assoc.
  - intros a1 a2 b1 b2 b3. rewrite format_is_injection_block.
    unfold injection_block. cbn [render_sections]. unfold render_section.
    rewrite section_header_1, section_header_2.
    rewrite section_footer_1, section_footer_2.
    cbn [map concat]. rewrite !app_nil_r. by rewrite <- !app_assoc.
Qed.

End FormattingClaims.

(** ** The properties at work on buffers *)

Section Examples.
Import Example.

(** C3 on three buffers, the secondary ones empty. *)
Lemma get_without_secondary_history_witness :
  let w := store_of [mkBuffer dialogue true; mkBuffer [] true; mkBuffer [] true] in
  let w1 := snd (mem_get 0 no_query w) in
  let w2 := snd (get_each [1; 2] no_query w1) in
  mem_get 0 no_query w = (Ok dialogue, w1)
  /\ get_each [1; 2] no_query w1 = (Ok [[]; []], w2)
  /\ Forall (fun h => h = []) ([[]; []] : list (list (ChatMessage Role3)))
  /\ get memory3 no_query w = (Ok dialogue, w2).
Proof.
  intros w w1 w2.
  assert (mem_get 0 no_query w = (Ok dialogue, w1)) as Hp by reflexivity.
  assert (get_each [1; 2] no_query w1 = (Ok [[]; []], w2)) as Hs
    by reflexivity.
  assert (Forall (fun h => h = [])
            ([[]; []] : list (list (ChatMessage Role3)))) as He
    by (repeat constructor).
  split; [exact Hp|]. split; [exact Hs|]. split; [exact He|].
  exact (get_without_secondary_history memory3 no_query w _ _ _ _ Hp Hs He).
Defined.

(** C5 on an empty primary buffer and one non-empty secondary buffer. *)
Lemma get_with_empty_primary_witness :
  let w := store_of [mkBuffer [] true; mkBuffer [] true; mkBuffer earlier true] in
  let w1 := snd (mem_get 0 no_query w) in
  let w2 := snd (get_each [1; 2] no_query w1) in
  mem_get 0 no_query w = (Ok [], w1)
  /\ get_each [1; 2] no_query w1 = (Ok [[]; earlier], w2)
  /\ Exists (fun h => h <> []) [[]; earlier]
  /\ get memory3 no_query w
     = (Ok [mkChatMessage System
              (lit "You are a helpful assistant."
                 ++ _format_secondary_messages [earlier])], w2).
Proof.
  intros w w1 w2.
  assert (mem_get 0 no_query w = (Ok [], w1)) as Hp by reflexivity.
  assert (get_each [1; 2] no_query w1 = (Ok [[]; earlier], w2)) as Hs
    by reflexivity.
  assert (Exists (fun h => h <> []) [[]; earlier]) as He
    by (right; left; discriminate).
  split; [exact Hp|]. split; [exact Hs|]. split; [exact He|].
  exact (get_with_empty_primary memory3 no_query w _ _ _ Hp Hs He).
Defined.

(** C2 on a primary buffer that starts with a system prompt. *)
Lemma get_with_system_first_witness :
  let w := store_of [mkBuffer dialogue true; mkBuffer earlier true;
                     mkBuffer later true] in
  let w1 := snd (mem_get 0 no_query w) in
  let w2 := snd (get_each [1; 2] no_query w1) in
  mem_get 0 no_query w
  = (Ok (msg System "You are a tutor." :: [msg User "What is a monad?"]), w1)
  /\ role (msg System "You are a tutor.") = SYSTEM
  /\ get_each [1; 2] no_query w1 = (Ok [earlier; later], w2)
  /\ Exists (fun h => h <> []) [earlier; later]
  /\ get memory3 no_query w
     = (Ok (mkChatMessage System
              (lit "You are a tutor."
                 ++ _format_secondary_messages [earlier; later])
              :: [msg User "What is a monad?"]), w2).
Proof.
  intros w w1 w2.
  assert (mem_get 0 no_query w
          = (Ok (msg System "You are a tutor."
                   :: [msg User "What is a monad?"]), w1)) as Hp
    by reflexivity.
  assert (role (msg System "You are a tutor.") = SYSTEM) as Hr by reflexivity.
  assert (get_each [1; 2] no_query w1 = (Ok [earlier; later], w2)) as Hs
    by reflexivity.
  assert (Exists (fun h => h <> []) [earlier; later]) as He
    by (left; discriminate).
  split; [exact Hp|]. split; [exact Hr|]. split; [exact Hs|].
  split; [exact He|].
  exact (get_with_system_first memory3 no_query w _ _ _ _ _ Hp Hr Hs He).
Defined.

(** C1 on buffers: the primary buffer of the second store holds the result
    of the first [get], block included. *)
Lemma recomposition_replaces_block_witness :
  let x := lit "You are a tutor." in
  let rest := [msg User "What is a monad?"] in
  let B := _format_secondary_messages [earlier] in
  let B' := _format_secondary_messages [earlier; later] in
  let first := mkChatMessage System (x ++ B) :: rest in
  let w := store_of [mkBuffer dialogue true; mkBuffer earlier true;
                     mkBuffer [] true] in
  let v := store_of [mkBuffer first true; mkBuffer earlier true;
                     mkBuffer later true] in
  let w1 := snd (mem_get 0 no_query w) in
  let w2 := snd (get_each [1; 2] no_query w1) in
  let v1 := snd (mem_get 0 no_query v) in
  let v2 := snd (get_each [1; 2] no_query v1) in
  get memory3 no_query w = (Ok first, w2)
  /\ mem_get 0 no_query v = (Ok first, v1)
  /\ get memory3 no_query v = (Ok (mkChatMessage System (x ++ B') :: rest), v2)
  /\ x ++ B' <> x ++ B ++ B'.
Proof.
  intros x rest B B' first w v w1 w2 v1 v2.
  assert (mem_get 0 no_query w = (Ok dialogue, w1)) as Hp by reflexivity.
  assert (get_each [1; 2] no_query w1 = (Ok [earlier; []], w2)) as Hs
    by reflexivity.
  assert (Exists (fun h => h <> []) [earlier; []]) as He
    by (left; discriminate).
  assert (get memory3 no_query w = (Ok first, w2)) as Hfirst
    by (vm_compute; reflexivity).
  assert (mem_get 0 no_query v = (Ok first, v1)) as Hp' by reflexivity.
  assert (get_each [1; 2] no_query v1 = (Ok [earlier; later], v2)) as Hs'
    by reflexivity.
  assert (Exists (fun h => h <> []) [earlier; later]) as He'
    by (left; discriminate).
  split; [exact Hfirst|]. split; [exact Hp'|].
  exact (recomposition_replaces_block memory3 no_query w dialogue w1
           [earlier; []] w2 x rest no_query v v1 [earlier; later] v2
           Hp Hs He Hfirst Hp' Hs' He').
Defined.

(** C2 as it was stated fails: white space before X is stripped as well,
    and X is cut at the marker sentence when it contains it. *)
Lemma get_strips_both_ends_and_cuts_at_marker :
  let B := _format_secondary_messages [earlier] in
  let self := mkSimpleComposableMemory 0 [1] in
  let w x := store_of [mkBuffer [mkChatMessage System x; msg User "Hi"] true;
                       mkBuffer earlier true] in
  let x1 := lit " Be brief." in
  let x2 := lit "Be brief. " ++ DEFAULT_INTRO_HISTORY_MESSAGE ++ lit " (none)" in
  fst (get self no_query (w x1))
  = Ok [mkChatMessage System (lit "Be brief." ++ B); msg User "Hi"]
  /\ lit "Be brief." ++ B <> rstrip x1 ++ B
  /\ fst (get self no_query (w x2))
     = Ok [mkChatMessage System (lit "Be brief." ++ B); msg User "Hi"]
  /\ lit "Be brief." ++ B <> rstrip x2 ++ B.
Proof.
  vm_compute. repeat split; discriminate.
Qed.

(** C7 as it was stated fails: two runs of [put] in which different sources
    fail end with the same exception, the one the source raised; nothing in
    it tells which source failed. *)
Lemma put_exception_names_no_source :
  let w := store_of [mkBuffer [] true; mkBuffer [] false; mkBuffer [] false] in
  let m := msg User "Hello" in
  let run1 := put (mkSimpleComposableMemory 1 [0]) m w in
  let run2 := put (mkSimpleComposableMemory 0 [2]) m w in
  fst run1 = Raise (FromSource WriteFailed)
  /\ calls (snd run1) = [CPut 1 m]
  /\ fst run2 = Raise (FromSource WriteFailed)
  /\ calls (snd run2) = [CPut 0 m; CPut 2 m]
  /\ stored 0 (snd run2) = [m]
  /\ ~ exists failing : exn BufferError -> Handle,
        calls (snd run1) = [CPut (failing (FromSource WriteFailed)) m]
        /\ calls (snd run2)
           = [CPut 0 m; CPut (failing (FromSource WriteFailed)) m].
Proof.
  vm_compute. repeat split.
  intros (failing & H1 & H2).
  injection H1 as H1. injection H2 as H2. congruence.
Qed.


(** The specification's checks of the fan-out on one primary and two
    secondary buffers. *)
Example put_reaches_three_buffers :
  let w := store_of [mkBuffer dialogue true; mkBuffer earlier true;
                     mkBuffer [] true] in
  let m := msg User "Thanks." in
  let w' := snd (put memory3 m w) in
  fst (put memory3 m w) = Ok tt
  /\ stored 0 w' = dialogue ++ [m]
  /\ stored 1 w' = earlier ++ [m]
  /\ stored 2 w' = [m]
  /\ calls w' = [CPut 0 m; CPut 1 m; CPut 2 m].
Proof. by vm_compute. Qed.

Example put_keeps_earlier_writes :
  let w := store_of [mkBuffer dialogue true; mkBuffer earlier false;
                     mkBuffer [] true] in
  let m := msg User "Thanks." in
  let w' := snd (put memory3 m w) in
  fst (put memory3 m w) = Raise (FromSource WriteFailed)
  /\ stored 0 w' = dialogue ++ [m]
  /\ stored 1 w' = earlier
  /\ stored 2 w' = []
  /\ calls w' = [CPut 0 m; CPut 1 m].
Proof. by vm_compute. Qed.

Example reset_and_reset_all_on_three_buffers :
  let w := store_of [mkBuffer dialogue true; mkBuffer earlier true;
                     mkBuffer later true] in
  let w1 := snd (reset memory3 w) in
  let w2 := snd (reset_all memory3 w) in
  (stored 0 w1 = [] /\ stored 1 w1 = earlier /\ stored 2 w1 = later)
  /\ calls w1 = [CReset 0]
  /\ (stored 0 w2 = [] /\ stored 1 w2 = [] /\ stored 2 w2 = [])
  /\ calls w2 = [CReset 0; CReset 1; CReset 2].
Proof. by vm_compute. Qed.

Example get_all_ignores_secondary_buffers :
  let w := store_of [mkBuffer dialogue true; mkBuffer earlier true;
                     mkBuffer later true] in
  fst (get_all memory3 w) = Ok dialogue
  /\ calls (snd (get_all memory3 w)) = [CGetAll 0].
Proof. by vm_compute. Qed.

End Examples.

(** * Further properties of the module *)

Section FurtherFormatting.
Context {Role : Type} `{!MessageRole Role}.
Implicit Types (h : list (ChatMessage Role)).
Implicit Types (hs : list (list (ChatMessage Role))).

Lemma render_sections_app i hs1 hs2 :
  render_sections i (hs1 ++ hs2)
  = render_sections i hs1 ++ render_sections (i + length hs1) hs2.
Proof.
  revert i. induction hs1 as [|h hs1 IH]; intros i; cbn [app render_sections length].
  - by rewrite Nat.add_0_r.
  - rewrite IH, <- app_assoc. by replace (S i + length hs1) with (i + S (length hs1)) by lia.
Qed.

(** X6.  Histories added at the end only add sections at the end: the
    block of [hs1 ++ hs2] is the block of [hs1] with, before the closing
    sentence, the sections of [hs2] numbered on from [length hs1 + 1].  The
    block of no history at all is the introductory sentence and the closing
    sentence. *)
Theorem format_appends_sections hs1 hs2 :
  (exists body,
      _format_secondary_messages hs1 = body ++ DEFAULT_OUTRO_HISTORY_MESSAGE
      /\ _format_secondary_messages (hs1 ++ hs2)
         = body ++ render_sections (length hs1 + 1) hs2
                ++ DEFAULT_OUTRO_HISTORY_MESSAGE)
  /\ _format_secondary_messages ([] : list (list (ChatMessage Role)))
     = [nl; nl] ++ DEFAULT_INTRO_HISTORY_MESSAGE ++ [nl]
         ++ DEFAULT_OUTRO_HISTORY_MESSAGE.
Proof.
  split.
  - exists ([nl; nl] ++ DEFAULT_INTRO_HISTORY_MESSAGE ++ [nl]
              ++ render_sections 1 hs1).
    rewrite !format_is_injection_block. unfold injection_block.
    rewrite render_sections_app, (Nat.add_comm 1 (length hs1)).
    by rewrite <- !app_assoc.
  - by rewrite format_is_injection_block.
Qed.

End FurtherFormatting.

Section FurtherCoordinator.
Context {Role St Q E : Type} `{!MessageRole Role} `{!BaseMemory Role St Q E}.
Implicit Types (self : SimpleComposableMemory) (q : Q) (l : list Handle).
Implicit Types (w v : World Role St Q) (m : ChatMessage Role).
Implicit Types (messages ms : list (ChatMessage Role)).
Implicit Types (hists : list (list (ChatMessage Role))).

Lemma set_as_loop self ms w :
  set self ms w
  = for_each (_primary_memory self :: _secondary_memory_sources self)
             (fun mem => mem_set mem ms) w.
Proof. by rewrite for_each_cons. Qed.

(** X1.  [set] calls [set] with the same messages on the primary source
    and then on each secondary source, in order.  Either every call
    succeeds, or [set] stops at the first source whose call raises: that
    source's exception leaves as it is, the sources before it keep the new
    history, the sources after it are not called. *)
Theorem set_writes_in_order self ms w :
  let sources := _primary_memory self :: _secondary_memory_sources self in
  let after l :=
    mkWorld (apply_each (src_set ms) l (cells w)) (next w)
            (calls w ++ map (fun mem => CSet mem ms) l) in
  set self ms w = (Ok tt, after sources)
  \/ exists written mem unwritten e s',
      sources = written ++ mem :: unwritten
      /\ for_each written (fun mem => mem_set mem ms) w = (Ok tt, after written)
      /\ src_set ms (cells (after written) mem) = (Raise e, s')
      /\ set self ms w
         = (Raise (FromSource e),
            mkWorld (<[mem := s']> (cells (after written))) (next w)
                    (calls w ++ map (fun mem => CSet mem ms) (written ++ [mem]))).
Proof.
  intros sources after. rewrite set_as_loop. fold sources.
  apply (for_each_call_cases sources (fun mem => CSet mem ms) (src_set ms) w).
Qed.

(** X2.  When the primary history starts with a message that is not a
    SYSTEM message and some secondary source answers with a non-empty
    history, [get] puts a new SYSTEM message in front (the default
    assistant introduction followed by the block) and keeps every message
    of the primary history, the first one included, in order. *)
Theorem get_with_other_first self q w m0 rest w1 hists w2 :
  mem_get (_primary_memory self) q w = (Ok (m0 :: rest), w1) ->
  role m0 <> SYSTEM ->
  get_each (_secondary_memory_sources self) q w1 = (Ok hists, w2) ->
  Exists (fun h => h <> []) hists ->
  get self q w
  = (Ok (mkChatMessage SYSTEM
           (DEFAULT_SYSTEM_PROMPT
              ++ _format_secondary_messages (List.filter nonempty hists))
           :: m0 :: rest),
     w2).
Proof.
  intros Hp Hrole Hs Hsome. rewrite (compose_by_answers _ _ _ _ _ _ _ Hp Hs).
  rewrite merge_histories_cons by by apply filter_some_nonempty.
  unfold system_prefix, history_body.
  by destruct (decide (role m0 = SYSTEM)).
Qed.

(** X8.  The result of [get] depends on the answers of the secondary
    sources only through the non-empty ones and their order: an empty
    answer gives no section and takes no section number, so the number in a
    header counts the non-empty histories, not the sources. *)
Theorem get_ignores_empty_answers
    self q w messages w1 hists w2 self' q' v v1 hists' v2 :
  mem_get (_primary_memory self) q w = (Ok messages, w1) ->
  get_each (_secondary_memory_sources self) q w1 = (Ok hists, w2) ->
  mem_get (_primary_memory self') q' v = (Ok messages, v1) ->
  get_each (_secondary_memory_sources self') q' v1 = (Ok hists', v2) ->
  List.filter nonempty hists = List.filter nonempty hists' ->
  fst (get self q w) = fst (get self' q' v).
Proof.
  intros Hp Hs Hp' Hs' Hsame.
  rewrite (compose_by_answers _ _ _ _ _ _ _ Hp Hs).
  rewrite (compose_by_answers _ _ _ _ _ _ _ Hp' Hs').
  cbn [fst]. by rewrite Hsame.
Qed.

(** X7.  A memory without secondary sources, as [from_defaults] makes for
    no list or an empty one, is its primary source: each method is the one
    call of the same method on the primary source. *)
Theorem single_source_is_transparent self q m ms w :
  _secondary_memory_sources self = [] ->
  get self q w = mem_get (_primary_memory self) q w
  /\ get_all self w = mem_get_all (_primary_memory self) w
  /\ put self m w = mem_put (_primary_memory self) m w
  /\ set self ms w = mem_set (_primary_memory self) ms w
  /\ reset_all self w = reset self w.
Proof.
  intros Hnone.
  unfold get, _compose_message_histories, put, set, reset_all, reset.
  rewrite Hnone. cbn [for_loop for_each]. unfold bind, ret.
  repeat split.
  - by destruct (mem_get (_primary_memory self) q w) as [[a|x] w'].
  - by destruct (mem_put (_primary_memory self) m w) as [[[]|x] w'].
  - by destruct (mem_set (_primary_memory self) ms w) as [[[]|x] w'].
  - by destruct (mem_reset (_primary_memory self) w) as [[[]|x] w'].
Qed.

(** *** The calls of [get] *)

Lemma asked_each_cons q h l (c : Handle -> St) r s' :
  src_get q (c h) = (r, s') ->
  asked_each q (h :: l) c = asked_each q l (<[h := s']> c).
Proof. intros Hm. unfold asked_each. cbn [fold_left]. by rewrite Hm. Qed.

(** Asking the sources of [l] in order: either every source answers, or
    the first source that raises ends the round. *)
Lemma get_each_cases l q w :
  let after l :=
    mkWorld (asked_each q l (cells w)) (next w)
            (calls w ++ map (fun mem => CGet mem q) l) in
  (exists hists, get_each l q w = (Ok hists, after l))
  \/ exists asked mem rest hists e s',
      l = asked ++ mem :: rest
      /\ get_each asked q w = (Ok hists, after asked)
      /\ src_get q (cells (after asked) mem) = (Raise e, s')
      /\ get_each l q w
         = (Raise (FromSource e),
            mkWorld (<[mem := s']> (cells (after asked))) (next w)
                    (calls w ++ map (fun mem => CGet mem q) (asked ++ [mem]))).
Proof.
  intros after. revert w after. induction l as [|h l IH]; intros w after.
  - left. exists []. unfold after. destruct w. cbn. by rewrite app_nil_r.
  - assert (forall k, get_each (h :: k) q w
              = match src_get q (cells w h) with
                | (Ok a, s') =>
                    match get_each k q
                            (mkWorld (<[h:=s']> (cells w)) (next w)
                                     (calls w ++ [CGet h q])) with
                    | (Ok answers, w') => (Ok (a :: answers), w')
                    | (Raise x, w') => (Raise x, w')
                    end
                | (Raise e, s') =>
                    (Raise (FromSource e),
                     mkWorld (<[h:=s']> (cells w)) (next w)
                             (calls w ++ [CGet h q]))
                end) as Hstep.
    { intros k. cbn [get_each]. unfold bind at 1. unfold mem_get at 1, call.
      destruct (src_get q (cells w h)) as [[a|e] s']; [|done].
      cbn [from_source]. unfold bind, ret.
      by destruct (get_each k q _) as [[answers|x] w']. }
    destruct (src_get q (cells w h)) as [[a|e] s'] eqn:Hm.
    + specialize (IH (mkWorld (<[h:=s']> (cells w)) (next w)
                              (calls w ++ [CGet h q]))).
      cbn [cells next calls] in IH.
      destruct IH as [[hists Hok]
                     |(asked & mem & rest & hists & e & t & -> & Ha & He & Hl)].
      * left. exists (a :: hists). unfold after.
        rewrite Hstep, Hok, (asked_each_cons _ _ _ _ _ _ Hm).
        cbn [map]. by rewrite <- app_assoc.
      * right. exists (h :: asked), mem, rest, (a :: hists), e, t.
        unfold after.
        rewrite !Hstep, Ha, Hl, !(asked_each_cons _ _ _ _ _ _ Hm).
        cbn [map app cells]. cbn [cells] in He. rewrite <- !app_assoc. done.
    + right. exists [], h, l, [], e, s'. rewrite Hstep. unfold after.
      repeat split; [|exact Hm].
      destruct w. cbn. by rewrite app_nil_r.
Qed.

(** [get] asks the primary source and the secondary sources as one round
    over all of them. *)
Lemma get_via_get_each self q w :
  get self q w
  = match get_each (_primary_memory self :: _secondary_memory_sources self)
                   q w with
    | (Ok answers, w') =>
        (Ok (merge_histories (hd [] answers)
                             (List.filter nonempty (tl answers))), w')
    | (Raise x, w') => (Raise x, w')
    end.
Proof.
  cbn [get_each]. unfold bind at 1.
  destruct (mem_get (_primary_memory self) q w) as [[messages|x] w1] eqn:Hp.
  - unfold bind at 1.
    destruct (get_each (_secondary_memory_sources self) q w1)
      as [[hists|x] w2] eqn:Hs.
    + by rewrite (compose_by_answers _ _ _ _ _ _ _ Hp Hs).
    + unfold get, _compose_message_histories. unfold bind at 1. rewrite Hp.
      unfold bind at 1. by rewrite collect_loop, Hs.
  - unfold get, _compose_message_histories. unfold bind at 1. by rewrite Hp.
Qed.

(** X3.  [get] calls [get] with its query on the primary source and then
    on each secondary source, in order, and makes no other call.  Either
    every source answers and [get] returns a history, or [get] stops at the
    first source that raises: that source's exception leaves as it is, no
    history is returned, and the sources after it are not asked. *)
Theorem get_asks_in_order self q w :
  let sources := _primary_memory self :: _secondary_memory_sources self in
  let after l :=
    mkWorld (asked_each q l (cells w)) (next w)
            (calls w ++ map (fun mem => CGet mem q) l) in
  (exists result, get self q w = (Ok result, after sources))
  \/ exists asked mem rest e s',
      sources = asked ++ mem :: rest
      /\ (exists answers, get_each asked q w = (Ok answers, after asked))
      /\ src_get q (cells (after asked) mem) = (Raise e, s')
      /\ get self q w
         = (Raise (FromSource e),
            mkWorld (<[mem := s']> (cells (after asked))) (next w)
                    (calls w ++ map (fun mem => CGet mem q) (asked ++ [mem]))).
Proof.
  intros sources after. rewrite get_via_get_each. fold sources.
  destruct (get_each_cases sources q w)
    as [[hists Hok]|(asked & mem & rest & hists & e & t & Hl & Ha & He & Hr)].
  - left. rewrite Hok. eauto.
  - right. exists asked, mem, rest, e, t. rewrite Hr. eauto 10.
Qed.

Lemma asked_each_outside q l (c : Handle -> St) h :
  h ∉ l -> asked_each q l c h = c h.
Proof.
  revert c. induction l as [|a l IH]; intros c Hh; [done|].
  apply not_elem_of_cons in Hh as [Hne Hh].
  unfold asked_each in *. cbn [fold_left]. rewrite IH by done.
  by rewrite fn_lookup_insert_ne.
Qed.



(** X11.  [get] looks at no message of the primary history but the
    first: every message after the first is in the result, in order and at
    the end; the result has as many messages as the primary history or one
    more, never fewer; and when some secondary source answers with a
    non-empty history the result starts with a SYSTEM message. *)
Theorem get_keeps_later_messages self q w messages w1 hists w2 :
  mem_get (_primary_memory self) q w = (Ok messages, w1) ->
  get_each (_secondary_memory_sources self) q w1 = (Ok hists, w2) ->
  exists result,
    get self q w = (Ok result, w2)
    /\ (tl messages `suffix_of` result)
    /\ length messages <= length result <= length messages + 1
    /\ (Exists (fun h => h <> []) hists ->
        exists c rest, result = mkChatMessage SYSTEM c :: rest).
Proof.
  intros Hp Hs. rewrite (compose_by_answers _ _ _ _ _ _ _ Hp Hs).
  eexists. split; [done|].
  destruct (List.filter nonempty hists) as [|h0 kept] eqn:Hkept.
  - rewrite merge_histories_nil. split; [|split; [lia|]].
    + destruct messages as [|m0 rest]; [done|]. by exists [m0].
    + intros Hsome%filter_some_nonempty. by rewrite Hkept in Hsome.
  - rewrite merge_histories_cons by done. unfold history_body.
    destruct messages as [|m0 rest].
    + split; [by eexists [_]|]. split; [cbn; lia|eauto].
    + destruct (decide (role m0 = SYSTEM)).
      * split; [by eexists [_]|]. split; [cbn; lia|eauto].
      * split; [by eexists [_; _]|]. split; [cbn; lia|eauto].
Qed.

(** *** What the methods leave alone *)

Lemma apply_each_outside (method : St -> result E unit * St) l
    (c : Handle -> St) h :
  h ∉ l -> apply_each method l c h = c h.
Proof.
  revert c. induction l as [|a l IH]; intros c Hh; [done|].
  apply not_elem_of_cons in Hh as [Hne Hh].
  unfold apply_each in *. cbn [fold_left]. rewrite IH by done.
  by rewrite fn_lookup_insert_ne.
Qed.

Lemma for_each_call_outside l (mk : Handle -> Call Role Q)
    (method : St -> result E unit * St) w h :
  h ∉ l ->
  cells (snd (for_each l (fun mem => call mem (mk mem) method) w)) h
  = cells w h.
Proof.
  intros Hh.
  destruct (for_each_call_cases l mk method w)
    as [Hok|(done_ & mem & rest & e & t & Hl & Hd & He & Hr)].
  - rewrite Hok. cbn [snd cells]. by apply apply_each_outside.
  - rewrite Hr. cbn [snd cells]. subst l.
    apply not_elem_of_app in Hh as [Hd' Hm].
    apply not_elem_of_cons in Hm as [Hne _].
    rewrite fn_lookup_insert_ne by done. by apply apply_each_outside.
Qed.

(** X4.  No method changes a source that is not one of the memory's
    sources, whether the method returns or raises. *)
Theorem methods_touch_own_sources_only self q m ms w h :
  h ∉ _primary_memory self :: _secondary_memory_sources self ->
  cells (snd (get self q w)) h = cells w h
  /\ cells (snd (get_all self w)) h = cells w h
  /\ cells (snd (put self m w)) h = cells w h
  /\ cells (snd (set self ms w)) h = cells w h
  /\ cells (snd (reset self w)) h = cells w h
  /\ cells (snd (reset_all self w)) h = cells w h.
Proof.
  intros Hh. pose proof Hh as Hh'.
  apply not_elem_of_cons in Hh' as [Hp _].
  split; [|split; [|split; [|split; [|split]]]].
  - rewrite get_via_get_each.
    destruct (get_each_cases
                (_primary_memory self :: _secondary_memory_sources self) q w)
      as [[hists Hok]|(asked & mem & rest & hists & e & t & Hl & Ha & He & Hr)].
    + rewrite Hok. cbn [snd cells]. by apply asked_each_outside.
    + rewrite Hr. cbn [snd cells]. rewrite Hl in Hh.
      apply not_elem_of_app in Hh as [Hd' Hm].
      apply not_elem_of_cons in Hm as [Hne _].
      rewrite fn_lookup_insert_ne by done. by apply asked_each_outside.
  - unfold get_all, mem_get_all, call.
    destruct (src_get_all (cells w (_primary_memory self))). cbn [snd cells].
    by rewrite fn_lookup_insert_ne.
  - rewrite put_as_loop.
    by apply (for_each_call_outside _ (fun mem => CPut mem m) (src_put m)).
  - rewrite set_as_loop.
    by apply (for_each_call_outside _ (fun mem => CSet mem ms) (src_set ms)).
  - unfold reset, mem_reset, call.
    destruct (src_reset (cells w (_primary_memory self))). cbn [snd cells].
    by rewrite fn_lookup_insert_ne.
  - rewrite reset_all_as_loop.
    by apply (for_each_call_outside _ CReset src_reset).
Qed.

Lemma for_each_call_raises l (mk : Handle -> Call Role Q)
    (method : St -> result E unit * St) w x :
  fst (for_each l (fun mem => call mem (mk mem) method) w) = Raise x ->
  exists e, x = FromSource e.
Proof.
  destruct (for_each_call_cases l mk method w)
    as [Hok|(done_ & mem & rest & e & t & Hl & Hd & He & Hr)].
  - by rewrite Hok.
  - rewrite Hr. intros [= <-]. eauto.
Qed.

(** X12.  Once a memory is constructed, the only exceptions that leave its
    methods are those its sources raise: none of [get], [get_all], [put],
    [set], [reset] and [reset_all] raises an exception of the module's
    own. *)
Theorem methods_raise_only_source_errors self q m ms w x :
  (fst (get self q w) = Raise x -> exists e, x = FromSource e)
  /\ (fst (get_all self w) = Raise x -> exists e, x = FromSource e)
  /\ (fst (put self m w) = Raise x -> exists e, x = FromSource e)
  /\ (fst (set self ms w) = Raise x -> exists e, x = FromSource e)
  /\ (fst (reset self w) = Raise x -> exists e, x = FromSource e)
  /\ (fst (reset_all self w) = Raise x -> exists e, x = FromSource e).
Proof.
  split; [|split; [|split; [|split; [|split]]]].
  - rewrite get_via_get_each.
    destruct (get_each_cases
                (_primary_memory self :: _secondary_memory_sources self) q w)
      as [[hists Hok]|(asked & mem & rest & hists & e & t & Hl & Ha & He & Hr)].
    + by rewrite Hok.
    + rewrite Hr. intros [= <-]. eauto.
  - unfold get_all, mem_get_all, call.
    destruct (src_get_all (cells w (_primary_memory self))) as [[a|e] s'];
      cbn; [done|]. intros [= <-]. eauto.
  - rewrite put_as_loop.
    apply (for_each_call_raises _ (fun mem => CPut mem m) (src_put m)).
  - rewrite set_as_loop.
    apply (for_each_call_raises _ (fun mem => CSet mem ms) (src_set ms)).
  - unfold reset, mem_reset, call.
    destruct (src_reset (cells w (_primary_memory self))) as [[a|e] s'];
      cbn; [done|]. intros [= <-]. eauto.
  - rewrite reset_all_as_loop.
    apply (for_each_call_raises _ CReset src_reset).
Qed.

(** *** Distinct sources, and the same source twice *)

Lemma apply_each_nodup (method : St -> result E unit * St) l
    (c : Handle -> St) h :
  NoDup l -> h ∈ l -> apply_each method l c h = snd (method (c h)).
Proof.
  revert c. induction l as [|a l IH]; intros c Hnd Hh; [by inversion Hh|].
  apply list.NoDup_cons in Hnd as [Ha Hnd].
  unfold apply_each in *. cbn [fold_left].
  apply elem_of_cons in Hh as [->|Hh].
  - fold (apply_each method l (<[a:=(method (c a)).2]> c)).
    rewrite apply_each_outside by done. by rewrite fn_lookup_insert.
  - rewrite IH by done.
    assert (a <> h) as Hne by (intros ->; done).
    by rewrite fn_lookup_insert_ne.
Qed.

Lemma for_each_call_nodup l (mk : Handle -> Call Role Q)
    (method : St -> result E unit * St) w w' h :
  NoDup l ->
  for_each l (fun mem => call mem (mk mem) method) w = (Ok tt, w') ->
  h ∈ l ->
  cells w' h = snd (method (cells w h)).
Proof.
  intros Hnd Hrun Hh.
  destruct (for_each_call_cases l mk method w)
    as [Hok|(done_ & mem & rest & e & t & Hl & Hd & He & Hr)].
  - rewrite Hok in Hrun. injection Hrun as <-. cbn [cells].
    by apply apply_each_nodup.
  - rewrite Hr in Hrun. discriminate Hrun.
Qed.

(** X5.  When the sources of the memory are distinct objects, a [put],
    [set] or [reset_all] that returns has called the method exactly once on
    each of them: the state of each source is what its own [put], [set] or
    [reset] makes of the state it had. *)
Theorem distinct_sources_written_once self m ms w h :
  NoDup (_primary_memory self :: _secondary_memory_sources self) ->
  h ∈ _primary_memory self :: _secondary_memory_sources self ->
  (forall w', put self m w = (Ok tt, w') ->
              cells w' h = snd (src_put m (cells w h)))
  /\ (forall w', set self ms w = (Ok tt, w') ->
                 cells w' h = snd (src_set ms (cells w h)))
  /\ (forall w', reset_all self w = (Ok tt, w') ->
                 cells w' h = snd (src_reset (cells w h))).
Proof.
  intros Hnd Hh. split; [|split]; intros w' Hrun.
  - rewrite put_as_loop in Hrun.
    by apply (for_each_call_nodup _ (fun mem => CPut mem m) _ _ _ _ Hnd Hrun).
  - rewrite set_as_loop in Hrun.
    by apply (for_each_call_nodup _ (fun mem => CSet mem ms) _ _ _ _ Hnd Hrun).
  - rewrite reset_all_as_loop in Hrun.
    by apply (for_each_call_nodup _ CReset _ _ _ _ Hnd Hrun).
Qed.

(** X10.  When the one secondary source is the primary source itself, a
    [put] that returns has put the message into that source twice. *)
Theorem put_twice_into_aliased_source (p : Handle) m w w' :
  put (mkSimpleComposableMemory p [p]) m w = (Ok tt, w') ->
  cells w' p = snd (src_put m (snd (src_put m (cells w p))))
  /\ calls w' = calls w ++ [CPut p m; CPut p m].
Proof.
  intros Hrun. rewrite put_as_loop in Hrun.
  cbn [_primary_memory _secondary_memory_sources] in Hrun.
  unfold mem_put in Hrun.
  destruct (for_each_call_cases [p; p] (fun mem => CPut mem m) (src_put m) w)
    as [Hok|(done_ & mem & rest & e & t & Hl & Hd & He & Hr)].
  - rewrite Hok in Hrun. injection Hrun as <-. cbn [cells calls map].
    split; [|done]. unfold apply_each. cbn [fold_left].
    by rewrite !fn_lookup_insert.
  - rewrite Hr in Hrun. discriminate Hrun.
Qed.

End FurtherCoordinator.

(** ** The further properties at work *)

Section FurtherExamples.
Import Example Flaky.

(** X2 on a primary buffer that holds a question and no system prompt. *)
Lemma get_with_other_first_witness :
  let question := msg User "What is a monad?" in
  let w := store_of [mkBuffer [question] true; mkBuffer earlier true;
                     mkBuffer [] true] in
  let w1 := snd (mem_get 0 no_query w) in
  let w2 := snd (get_each [1; 2] no_query w1) in
  mem_get 0 no_query w = (Ok (question :: []), w1)
  /\ role question <> SYSTEM
  /\ get_each [1; 2] no_query w1 = (Ok [earlier; []], w2)
  /\ Exists (fun h => h <> []) [earlier; []]
  /\ get memory3 no_query w
     = (Ok [mkChatMessage System
              (lit "You are a helpful assistant."
                 ++ _format_secondary_messages [earlier]);
            question], w2).
Proof.
  intros question w w1 w2.
  assert (mem_get 0 no_query w = (Ok (question :: []), w1)) as Hp
    by reflexivity.
  assert (role question <> SYSTEM) as Hr by discriminate.
  assert (get_each [1; 2] no_query w1 = (Ok [earlier; []], w2)) as Hs
    by reflexivity.
  assert (Exists (fun h => h <> []) [earlier; []]) as He
    by (left; discriminate).
  split; [exact Hp|]. split; [exact Hr|]. split; [exact Hs|].
  split; [exact He|].
  exact (get_with_other_first memory3 no_query w _ _ _ _ _ Hp Hr Hs He).
Defined.

(** X8: the same history behind the first or behind the second secondary
    source gives the same result, a section numbered 1. *)
Lemma get_ignores_empty_answers_witness :
  let w := store_of [mkBuffer dialogue true; mkBuffer earlier true;
                     mkBuffer [] true] in
  let v := store_of [mkBuffer dialogue true; mkBuffer [] true;
                     mkBuffer earlier true] in
  let w1 := snd (mem_get 0 no_query w) in
  let w2 := snd (get_each [1; 2] no_query w1) in
  let v1 := snd (mem_get 0 no_query v) in
  let v2 := snd (get_each [1; 2] no_query v1) in
  get_each [1; 2] no_query w1 = (Ok [earlier; []], w2)
  /\ get_each [1; 2] no_query v1 = (Ok [[]; earlier], v2)
  /\ fst (get memory3 no_query w) = fst (get memory3 no_query v).
Proof.
  intros w v w1 w2 v1 v2.
  assert (mem_get 0 no_query w = (Ok dialogue, w1)) as Hp by reflexivity.
  assert (get_each [1; 2] no_query w1 = (Ok [earlier; []], w2)) as Hs
    by reflexivity.
  assert (mem_get 0 no_query v = (Ok dialogue, v1)) as Hp' by reflexivity.
  assert (get_each [1; 2] no_query v1 = (Ok [[]; earlier], v2)) as Hs'
    by reflexivity.
  split; [exact Hs|]. split; [exact Hs'|].
  exact (get_ignores_empty_answers memory3 no_query w _ _ _ _
           memory3 no_query v _ _ _ Hp Hs Hp' Hs' eq_refl).
Defined.

(** X7 on a memory over one buffer. *)
Lemma single_source_is_transparent_witness :
  let self := mkSimpleComposableMemory 0 [] in
  let w := store_of [mkBuffer dialogue true] in
  let m := msg User "Thanks." in
  _secondary_memory_sources self = []
  /\ get self no_query w = mem_get 0 no_query w
  /\ get_all self w = mem_get_all 0 w
  /\ put self m w = mem_put 0 m w
  /\ set self earlier w = mem_set 0 earlier w
  /\ reset_all self w = reset self w.
Proof.
  intros self w m. split; [reflexivity|].
  exact (single_source_is_transparent self no_query m earlier w eq_refl).
Defined.


(** X4 on a store of four buffers, the fourth of which is no source of the
    memory. *)
Lemma methods_touch_own_sources_only_witness :
  let w := store_of [mkBuffer dialogue true; mkBuffer earlier true;
                     mkBuffer later true; mkBuffer later true] in
  let m := msg User "Thanks." in
  (3 ∉ [0; 1; 2])
  /\ cells (snd (get memory3 no_query w)) 3 = cells w 3
  /\ cells (snd (get_all memory3 w)) 3 = cells w 3
  /\ cells (snd (put memory3 m w)) 3 = cells w 3
  /\ cells (snd (set memory3 earlier w)) 3 = cells w 3
  /\ cells (snd (reset memory3 w)) 3 = cells w 3
  /\ cells (snd (reset_all memory3 w)) 3 = cells w 3.
Proof.
  intros w m.
  assert (3 ∉ [0; 1; 2]) as Hout
    by (apply (bool_decide_unpack _); exact I).
  split; [exact Hout|].
  exact (methods_touch_own_sources_only memory3 no_query m earlier w 3 Hout).
Defined.

(** X5 on three buffers behind three references. *)
Lemma distinct_sources_written_once_witness :
  let w := store_of [mkBuffer dialogue true; mkBuffer earlier true;
                     mkBuffer later true] in
  let m := msg User "Thanks." in
  NoDup [0; 1; 2]
  /\ (1 ∈ [0; 1; 2])
  /\ put memory3 m w = (Ok tt, snd (put memory3 m w))
  /\ cells (snd (put memory3 m w)) 1 = snd (src_put m (cells w 1))
  /\ cells (snd (set memory3 dialogue w)) 1 = snd (src_set dialogue (cells w 1))
  /\ cells (snd (reset_all memory3 w)) 1 = snd (src_reset (cells w 1)).
Proof.
  intros w m.
  assert (NoDup [0; 1; 2]) as Hnd
    by (apply (bool_decide_unpack _); exact I).
  assert (1 ∈ [0; 1; 2]) as Hin
    by (apply (bool_decide_unpack _); exact I).
  assert (put memory3 m w = (Ok tt, snd (put memory3 m w))) as Hput
    by reflexivity.
  assert (set memory3 dialogue w = (Ok tt, snd (set memory3 dialogue w)))
    as Hset by reflexivity.
  assert (reset_all memory3 w = (Ok tt, snd (reset_all memory3 w)))
    as Hreset by reflexivity.
  destruct (distinct_sources_written_once memory3 m dialogue w 1 Hnd Hin)
    as (Hp & Hs & Hr).
  split; [exact Hnd|]. split; [exact Hin|]. split; [exact Hput|].
  split; [exact (Hp _ Hput)|]. split; [exact (Hs _ Hset)|].
  exact (Hr _ Hreset).
Defined.

(** X10 on one buffer given as primary and as secondary source: the
    message is stored twice. *)
Lemma put_twice_into_aliased_source_witness :
  let w := store_of [mkBuffer dialogue true] in
  let m := msg User "Thanks." in
  let w' := snd (put memory_aliased m w) in
  put memory_aliased m w = (Ok tt, w')
  /\ cells w' 0 = snd (src_put m (snd (src_put m (cells w 0))))
  /\ calls w' = calls w ++ [CPut 0 m; CPut 0 m].
Proof.
  intros w m w'.
  assert (put memory_aliased m w = (Ok tt, w')) as Hput by reflexivity.
  split; [exact Hput|].
  exact (put_twice_into_aliased_source 0 m w w' Hput).
Defined.

(** X11 on the three buffers of the dialogue. *)
Lemma get_keeps_later_messages_witness :
  let w := store_of [mkBuffer dialogue true; mkBuffer earlier true;
                     mkBuffer later true] in
  let w1 := snd (mem_get 0 no_query w) in
  let w2 := snd (get_each [1; 2] no_query w1) in
  mem_get 0 no_query w = (Ok dialogue, w1)
  /\ get_each [1; 2] no_query w1 = (Ok [earlier; later], w2)
  /\ exists result,
      get memory3 no_query w = (Ok result, w2)
      /\ (tl dialogue `suffix_of` result)
      /\ length dialogue <= length result <= length dialogue + 1
      /\ (Exists (fun h => h <> []) [earlier; later] ->
          exists c rest, result = mkChatMessage SYSTEM c :: rest).
Proof.
  intros w w1 w2.
  assert (mem_get 0 no_query w = (Ok dialogue, w1)) as Hp by reflexivity.
  assert (get_each [1; 2] no_query w1 = (Ok [earlier; later], w2)) as Hs
    by reflexivity.
  split; [exact Hp|]. split; [exact Hs|].
  exact (get_keeps_later_messages memory3 no_query w _ _ _ _ Hp Hs).
Defined.

(** [get] over shelves: a secondary shelf that cannot be read ends the
    round, and so does the primary one, before any other source is asked. *)
Example get_stops_at_unreadable_secondary :
  let w := shelves [mkShelf dialogue true; mkShelf earlier false;
                    mkShelf later true] in
  fst (get memory3 no_query w) = Raise (FromSource ReadFailed)
  /\ calls (snd (get memory3 no_query w)) = [CGet 0 no_query; CGet 1 no_query].
Proof. by vm_compute. Qed.

Example get_stops_at_unreadable_primary :
  let w := shelves [mkShelf dialogue false; mkShelf earlier true;
                    mkShelf later true] in
  fst (get memory3 no_query w) = Raise (FromSource ReadFailed)
  /\ calls (snd (get memory3 no_query w)) = [CGet 0 no_query].
Proof. by vm_compute. Qed.

Example get_asks_every_shelf :
  let w := shelves [mkShelf dialogue true; mkShelf earlier true;
                    mkShelf later true] in
  calls (snd (get memory3 no_query w))
  = [CGet 0 no_query; CGet 1 no_query; CGet 2 no_query].
Proof. by vm_compute. Qed.

(** [set] over buffers: the second of three refuses the write; the first
    holds the new history, the third the old one. *)
Example set_keeps_earlier_overwrite :
  let w := store_of [mkBuffer dialogue true; mkBuffer earlier false;
                     mkBuffer later true] in
  let w' := snd (set memory3 [msg User "New."] w) in
  fst (set memory3 [msg User "New."] w) = Raise (FromSource WriteFailed)
  /\ stored 0 w' = [msg User "New."]
  /\ stored 1 w' = earlier
  /\ stored 2 w' = later
  /\ calls w' = [CSet 0 [msg User "New."]; CSet 1 [msg User "New."]].
Proof. by vm_compute. Qed.

End FurtherExamples.
